(** * Shallow embedding of the etcd lock and service registry of go_practice

    The store is the etcd v3 key-value store as the Go client sees it:
    keys with values, a lease binding and a creation revision, a global
    revision counter, live leases, and the ordered log of change events a
    watcher consumes.  On top of it:
    - [TestDistributedLockNormal] (src/etcd_dlock_test.go), the hand-written
      lock: a conditional write, a watch loop with [goto getlock], and an
      unconditional [Delete] as unlock, run by several processes at once;
    - [RegistryEtcd.Registry] / [RegistryEtcd.DeRegistry]
      (src/service_registry/registry.go);
    - [DiscoveryEtcd.GetServiceAddr] (src/service_registry/discovery.go). *)

From Stdlib Require Import Ascii String List Bool Arith ZArith Lia.
Import ListNotations.
Open Scope string_scope.
Open Scope list_scope.

(** ** The store *)

(** etcd lease 0 is [clientv3.NoLease]: a put with it binds no lease. *)
Definition NoLease : nat := 0.

Record kv := mkKV {
  kv_key : string;
  kv_value : string;
  kv_lease : nat;
  kv_create : nat   (* CreateRevision *)
}.

Inductive event :=
| EvPut (k v : string)
| EvDelete (k : string).

Record store := mkStore {
  st_kvs : list kv;
  st_rev : nat;
  st_leases : list nat;      (* live leases *)
  st_next_lease : nat;       (* id the next Grant hands out, never 0 *)
  st_events : list event     (* watch history, oldest first *)
}.

(** Errors the Go code can get back. *)
Inductive error :=
| ErrConn                  (* store unreachable *)
| ErrLeaseNotFound         (* etcdserver: requested lease not found *)
| ErrMsg (s : string).     (* errors.New(s) *)

Fixpoint lookup (kvs : list kv) (k : string) : option kv :=
  match kvs with
  | [] => None
  | e :: r => if String.eqb (kv_key e) k then Some e else lookup r k
  end.

Definition lease_live (st : store) (l : nat) : bool :=
  (Nat.eqb l NoLease) || existsb (Nat.eqb l) (st_leases st).

(** [Put(k, v, WithLease(l))]: fails on a lease the store does not know;
    an existing key keeps its creation revision. *)
Definition put (st : store) (k v : string) (l : nat) : option store :=
  if lease_live st l then
    let rev' := S (st_rev st) in
    let kvs' :=
      match lookup (st_kvs st) k with
      | Some _ =>
          map (fun e => if String.eqb (kv_key e) k
                        then mkKV k v l (kv_create e) else e) (st_kvs st)
      | None => st_kvs st ++ [mkKV k v l rev']
      end in
    Some (mkStore kvs' rev' (st_leases st) (st_next_lease st)
                  (st_events st ++ [EvPut k v]))
  else None.

(** [Delete(k)]: deleting an absent key changes nothing and fires nothing. *)
Definition delete (st : store) (k : string) : store :=
  match lookup (st_kvs st) k with
  | None => st
  | Some _ =>
      mkStore (filter (fun e => negb (String.eqb (kv_key e) k)) (st_kvs st))
              (S (st_rev st)) (st_leases st) (st_next_lease st)
              (st_events st ++ [EvDelete k])
  end.

(** Removing a lease (revocation or TTL expiry) deletes every key bound to
    it, one Delete event per key. *)
Definition drop_lease (st : store) (l : nat) : store :=
  let gone := filter (fun e => Nat.eqb (kv_lease e) l) (st_kvs st) in
  mkStore (filter (fun e => negb (Nat.eqb (kv_lease e) l)) (st_kvs st))
          (S (st_rev st))
          (filter (fun x => negb (Nat.eqb x l)) (st_leases st))
          (st_next_lease st)
          (st_events st ++ map (fun e => EvDelete (kv_key e)) gone).

(** [Revoke(l)]: an unknown lease is an error. *)
Definition revoke (st : store) (l : nat) : option store :=
  if existsb (Nat.eqb l) (st_leases st) then Some (drop_lease st l) else None.

(** [Grant(ttl)]. *)
Definition grant (st : store) : nat * store :=
  let l := st_next_lease st in
  (l, mkStore (st_kvs st) (st_rev st) (st_leases st ++ [l]) (S l)
              (st_events st)).

Definition create_revision (st : store) (k : string) : nat :=
  match lookup (st_kvs st) k with
  | Some e => kv_create e
  | None => 0
  end.

(** Prefix read [Get(name, WithPrefix())]. *)
Definition get_prefix (st : store) (p : string) : list kv :=
  filter (fun e => String.prefix p (kv_key e)) (st_kvs st).

(** ** The hand-written lock of [TestDistributedLockNormal] *)

Definition lockKey : string := "my-distributed-lock-normal".

Inductive txn_result :=
| TxnErr (e : error)
| TxnOk (succeeded : bool) (st : store).

(** [Txn.If(Compare(CreateRevision(lockKey), "=", 0))
       .Then(OpPut(lockKey, "locked", WithLease(l))).Commit()]:
    one atomic step; etcd checks the requests of the branch it takes only,
    so the empty Else branch never fails. *)
Definition lock_txn (st : store) (l : nat) : txn_result :=
  if Nat.eqb (create_revision st lockKey) 0 then
    match put st lockKey "locked" l with
    | Some st' => TxnOk true st'
    | None => TxnErr ErrLeaseNotFound
    end
  else TxnOk false st.

(** Where a process is in the test function. *)
Inductive pc :=
| PAttempt            (* at label getlock *)
| PWatchSetup         (* txn not succeeded, about to call client.Watch *)
| PWait (n : nat)     (* in [for w := range watchChan], next event index n *)
| PCrit               (* step 6: the critical section *)
| PDone               (* after the Delete of step 7 *)
| PFatal.             (* t.Fatalf *)

Record proc := mkProc {
  p_lease : nat;
  p_pc : pc;
  p_acq : bool   (* ghost: reached PCrit through a succeeded transaction *)
}.

Definition set_pc (p : proc) (c : pc) (a : bool) : proc :=
  mkProc (p_lease p) c a.

(** One program step of a process, [None] when it is blocked or finished. *)
Definition proc_step (st : store) (p : proc) : option (store * proc) :=
  match p_pc p with
  | PAttempt =>
      match lock_txn st (p_lease p) with
      | TxnErr _ => Some (st, set_pc p PFatal false)
      | TxnOk true st' => Some (st', set_pc p PCrit true)
      | TxnOk false st' => Some (st', set_pc p PWatchSetup false)
      end
  | PWatchSetup =>
      (* client.Watch(ctx, lockKey) starts at the current revision *)
      Some (st, set_pc p (PWait (length (st_events st))) false)
  | PWait n =>
      match nth_error (st_events st) n with
      | None => None
      | Some (EvDelete k) =>
          if String.eqb k lockKey then Some (st, set_pc p PAttempt false)
          else Some (st, set_pc p (PWait (S n)) false)
      | Some (EvPut _ _) => Some (st, set_pc p (PWait (S n)) false)
      end
  | PCrit => Some (delete st lockKey, set_pc p PDone false)
  | PDone | PFatal => None
  end.

(** When the watch channel closes, the range loop ends and control falls
    out of the else branch into step 6. *)
Definition watch_close (p : proc) : option proc :=
  match p_pc p with
  | PWait _ => Some (set_pc p PCrit (p_acq p))
  | _ => None
  end.

Fixpoint list_set {A} (l : list A) (i : nat) (x : A) : list A :=
  match l, i with
  | [], _ => []
  | _ :: r, 0 => x :: r
  | y :: r, S j => y :: list_set r j x
  end.

Record world := mkWorld {
  w_store : store;
  w_procs : list proc
}.

Inductive action :=
| AProc (i : nat)      (* process i takes its next program step *)
| AClose (i : nat)     (* the watch channel of process i closes *)
| AExpire (l : nat).   (* lease l expires without renewal *)

Definition run_action (w : world) (a : action) : option world :=
  match a with
  | AProc i =>
      match nth_error (w_procs w) i with
      | Some p =>
          match proc_step (w_store w) p with
          | Some (st', p') => Some (mkWorld st' (list_set (w_procs w) i p'))
          | None => None
          end
      | None => None
      end
  | AClose i =>
      match nth_error (w_procs w) i with
      | Some p =>
          match watch_close p with
          | Some p' => Some (mkWorld (w_store w) (list_set (w_procs w) i p'))
          | None => None
          end
      | None => None
      end
  | AExpire l =>
      if existsb (Nat.eqb l) (st_leases (w_store w))
      then Some (mkWorld (drop_lease (w_store w) l) (w_procs w))
      else None
  end.

Fixpoint run (w : world) (tr : list action) : option world :=
  match tr with
  | [] => Some w
  | a :: r => match run_action w a with Some w' => run w' r | None => None end
  end.

Definition held (w : world) (i : nat) : bool :=
  match nth_error (w_procs w) i with
  | Some p => match p_pc p with PCrit => p_acq p | _ => false end
  | None => false
  end.

(** [true] when some process in its critical section holds lease [l]. *)
Definition holder_lease (w : world) (l : nat) : bool :=
  existsb (fun p => match p_pc p with
                    | PCrit => Nat.eqb (p_lease p) l
                    | _ => false
                    end) (w_procs w).

(** Program steps and expiries of leases that no process in its critical
    section holds (a waiter's, a finished or a failed process's lease, or a
    lease no process uses); no watch close. *)
Inductive lock_reach : world -> world -> Prop :=
| LR_refl w : lock_reach w w
| LR_proc w w' w'' i :
    run_action w (AProc i) = Some w' -> lock_reach w' w'' -> lock_reach w w''
| LR_expire w w' w'' l :
    holder_lease w l = false ->
    run_action w (AExpire l) = Some w' -> lock_reach w' w'' ->
    lock_reach w w''.

(** Runs a trace along [lock_reach]; [None] when a step is not allowed. *)
Fixpoint run_lock (w : world) (tr : list action) : option world :=
  match tr with
  | [] => Some w
  | AProc i :: r =>
      match run_action w (AProc i) with Some w' => run_lock w' r | None => None end
  | AExpire l :: r =>
      if holder_lease w l then None
      else match run_action w (AExpire l) with
           | Some w' => run_lock w' r
           | None => None
           end
  | AClose _ :: _ => None
  end.

(** ** Service registration: [RegistryEtcd] *)

Definition LeaseTTL : nat := 5.

Record Service := mkService {
  svc_name : string;
  svc_addr : string
}.

Record RegistryEtcd := mkRegistry {
  r_open : bool;         (* client connection not yet closed *)
  r_leaseID : nat;
  r_leaseTTL : nat
}.

(** Which store calls of one operation fail (network or server error). *)
Record faults := mkFaults {
  f_grant : bool;
  f_put : bool;
  f_keepalive : bool;
  f_revoke : bool;
  f_close : bool
}.

Definition no_faults : faults := mkFaults false false false false false.

(** [uuid.New().String()] is drawn from [uuid], indexed by a counter that
    each call advances. *)
Definition Registry (uuid : nat -> string) (flt : faults) (st : store)
    (u : nat) (r : RegistryEtcd) (s : Service)
    : store * nat * RegistryEtcd * option error :=
  if f_grant flt then (st, u, r, Some ErrConn) else
  let (l, st1) := grant st in
  let r1 := mkRegistry (r_open r) l (r_leaseTTL r) in
  let serviceName := String.append (String.append (svc_name s) "-") (uuid u) in
  let u1 := S u in
  if f_put flt then (st1, u1, r1, Some ErrConn) else
  match put st1 serviceName (svc_addr s) l with
  | None => (st1, u1, r1, Some ErrLeaseNotFound)
  | Some st2 =>
      if f_keepalive flt then (st2, u1, r1, Some ErrConn)
      else (st2, u1, r1, None)
  end.

Definition DeRegistry (flt : faults) (st : store) (r : RegistryEtcd)
    : store * RegistryEtcd * option error :=
  if f_revoke flt then (st, r, Some ErrConn) else
  match revoke st (r_leaseID r) with
  | None => (st, r, Some ErrLeaseNotFound)
  | Some st' =>
      let r' := mkRegistry false (r_leaseID r) (r_leaseTTL r) in
      if f_close flt then (st', r', Some ErrConn) else (st', r', None)
  end.

(** [NewEtcdRegistry]: a fresh client, lease id the Go zero value. *)
Definition NewEtcdRegistry (leaseTTL : nat) : RegistryEtcd :=
  mkRegistry true 0 leaseTTL.

(** ** Service discovery: [DiscoveryEtcd.GetServiceAddr] *)

Definition ErrServiceNotFound : error := ErrMsg "service not found".

(** [intn n] is the draw of [rand.Intn(n)]; [get_fails] says whether the
    prefix read returns an error.  The outer [None] is the index-out-of-range
    panic, which a draw honouring [rand.Intn]'s contract never causes. *)
Definition GetServiceAddr (get_fails : bool) (intn : nat -> nat)
    (st : store) (name : string) : option (string * option error) :=
  if get_fails then Some ("", Some ErrConn) else
  let kvs := get_prefix st name in
  if Nat.eqb (length kvs) 0 then Some ("", Some ErrServiceNotFound) else
  match nth_error kvs (intn (length kvs)) with
  | Some e => Some (kv_value e, None)
  | None => None
  end.

(** A concrete unique-suffix generator used in the examples. *)
Fixpoint uuid_unary (n : nat) : string :=
  match n with
  | 0 => "u"
  | S m => String "x"%char (uuid_unary m)
  end.

Definition empty_store : store := mkStore [] 0 [] 1 [].

(** ** Constructors with their endpoint check *)

Definition ErrEmptyEndpoints : error := ErrMsg "etcd endpoints cannot be empty".

(** [NewEtcdRegistry(endpoints, timeout, leaseTTL)]: [dial_fails] says
    whether [clientv3.New] returns an error. *)
Definition NewEtcdRegistry_endpoints (endpoints : list string)
    (dial_fails : bool) (leaseTTL : nat) : option RegistryEtcd * option error :=
  if Nat.eqb (length endpoints) 0 then (None, Some ErrEmptyEndpoints) else
  if dial_fails then (None, Some ErrConn) else
  (Some (mkRegistry true 0 leaseTTL), None).

Record DiscoveryEtcd := mkDiscovery { d_open : bool }.

(** [NewEtcdDiscovery(endpoints, dialTimeout)]. *)
Definition NewEtcdDiscovery (endpoints : list string) (dial_fails : bool)
    : option DiscoveryEtcd * option error :=
  if Nat.eqb (length endpoints) 0 then (None, Some ErrEmptyEndpoints) else
  if dial_fails then (None, Some ErrConn) else
  (Some (mkDiscovery true), None).

(** ** [TestEtcd]: a plain put and an exact-key get *)

(** [Get(key)] without options: the response's [Kvs] hold the key, if any. *)
Definition get_key (st : store) (k : string) : list kv :=
  match lookup (st_kvs st) k with
  | Some e => [e]
  | None => []
  end.

(** ** [SpinLock] (src/spin_lock.go) *)

(** [atomic.CompareAndSwapInt32(&flag, old, new)]: the swapped flag and
    whether it swapped. *)
Definition cas_int32 (flag old new : Z) : bool * Z :=
  if Z.eqb flag old then (true, new) else (false, flag).

(** A goroutine using the lock: outside, inside [Lock]'s CAS loop, or
    holding the lock (between [Lock] returning and [Unlock]). *)
Inductive spin_pc :=
| SpinIdle
| SpinLoop
| SpinHeld.

(** One atomic step of a goroutine on the shared [flag]. *)
Definition spin_step (flag : Z) (t : spin_pc) : Z * spin_pc :=
  match t with
  | SpinIdle => (flag, SpinLoop)                       (* calls Lock *)
  | SpinLoop =>
      match cas_int32 flag 0 1 with
      | (true, flag') => (flag', SpinHeld)             (* Lock returns *)
      | (false, flag') => (flag', SpinLoop)            (* spins again *)
      end
  | SpinHeld => (0%Z, SpinIdle)                        (* Unlock: Store 0 *)
  end.

Record spin_world := mkSpinWorld {
  sw_flag : Z;
  sw_threads : list spin_pc
}.

Definition spin_run (w : spin_world) (i : nat) : option spin_world :=
  match nth_error (sw_threads w) i with
  | Some t =>
      let (flag', t') := spin_step (sw_flag w) t in
      Some (mkSpinWorld flag' (list_set (sw_threads w) i t'))
  | None => None
  end.

Inductive spin_reach : spin_world -> spin_world -> Prop :=
| SR_refl w : spin_reach w w
| SR_step w w' w'' i :
    spin_run w i = Some w' -> spin_reach w' w'' -> spin_reach w w''.

Definition is_held (t : spin_pc) : bool :=
  match t with SpinHeld => true | _ => false end.

Definition holders (w : spin_world) : nat :=
  length (filter is_held (sw_threads w)).

(** Run process [p] alone for [k] program steps. *)
Fixpoint proc_iter (k : nat) (st : store) (p : proc) : option (store * proc) :=
  match k with
  | 0 => Some (st, p)
  | S k' =>
      match proc_step st p with
      | Some (st', p') => proc_iter k' st' p'
      | None => None
      end
  end.

(** * Properties *)

(** ** Lists and the store *)

Lemma nth_error_list_set_eq {A} (l : list A) i x y :
  nth_error l i = Some y -> nth_error (list_set l i x) i = Some x.
Proof.
  revert i; induction l as [|a r IH]; intros [|i] H; simpl in *;
    try discriminate; auto.
Qed.

Lemma nth_error_list_set_neq {A} (l : list A) i j x :
  i <> j -> nth_error (list_set l i x) j = nth_error l j.
Proof.
  revert i j; induction l as [|a r IH]; intros [|i] [|j] H; simpl;
    auto; congruence.
Qed.

Lemma map_list_set_same {A B} (f : A -> B) (l : list A) i x y :
  nth_error l i = Some y -> f x = f y -> map f (list_set l i x) = map f l.
Proof.
  revert i; induction l as [|a r IH]; intros [|i] H Hf; simpl in *;
    try discriminate.
  - inversion H; subst; rewrite Hf; reflexivity.
  - f_equal; auto.
Qed.

Lemma lookup_key kvs k e : lookup kvs k = Some e -> kv_key e = k /\ In e kvs.
Proof.
  induction kvs as [|a r IH]; simpl; [discriminate|].
  destruct (String.eqb_spec (kv_key a) k) as [Hk|Hk].
  - intros H; inversion H; subst; auto.
  - intros H; destruct (IH H); auto.
Qed.

Lemma lookup_upd kvs k v l :
  lookup (map (fun e => if String.eqb (kv_key e) k
                        then mkKV k v l (kv_create e) else e) kvs) k
  = option_map (fun e => mkKV k v l (kv_create e)) (lookup kvs k).
Proof.
  induction kvs as [|a r IH]; simpl; auto.
  destruct (String.eqb_spec (kv_key a) k) as [Hk|Hk]; simpl.
  - rewrite String.eqb_refl; reflexivity.
  - apply String.eqb_neq in Hk; rewrite Hk; exact IH.
Qed.

Lemma lookup_app_one kvs k x :
  lookup kvs k = None ->
  lookup (kvs ++ [x]) k = if String.eqb (kv_key x) k then Some x else None.
Proof.
  induction kvs as [|a r IH]; simpl; auto.
  destruct (String.eqb (kv_key a) k); [discriminate | auto].
Qed.

Lemma lookup_filter_key kvs k :
  lookup (filter (fun e => negb (String.eqb (kv_key e) k)) kvs) k = None.
Proof.
  induction kvs as [|a r IH]; simpl; auto.
  destruct (String.eqb (kv_key a) k) eqn:E; simpl; auto.
  rewrite E; exact IH.
Qed.

Lemma lookup_filter_keep kvs k e f :
  lookup kvs k = Some e -> f e = true -> lookup (filter f kvs) k = Some e.
Proof.
  induction kvs as [|a r IH]; simpl; [discriminate|].
  destruct (String.eqb_spec (kv_key a) k) as [Hk|Hk].
  - intros H; injection H as <-; intros Hf; rewrite Hf; simpl.
    rewrite Hk, String.eqb_refl; reflexivity.
  - intros H Hf; destruct (f a); simpl; [|exact (IH H Hf)].
    destruct (String.eqb_spec (kv_key a) k); [congruence | exact (IH H Hf)].
Qed.

(** Every stored key has a positive creation revision. *)
Definition store_wf (st : store) : Prop :=
  Forall (fun e => 0 < kv_create e) (st_kvs st).

Lemma put_wf st k v l st' : store_wf st -> put st k v l = Some st' -> store_wf st'.
Proof.
  unfold put, store_wf; intros Hwf H.
  destruct (lease_live st l); [|discriminate].
  inversion H; subst; clear H; simpl.
  destruct (lookup (st_kvs st) k).
  - apply Forall_map. eapply Forall_impl; [|exact Hwf].
    intros e He; simpl. destruct (String.eqb (kv_key e) k); simpl; auto.
  - apply Forall_app; split; auto. constructor; simpl; [lia | constructor].
Qed.

Lemma delete_wf st k : store_wf st -> store_wf (delete st k).
Proof.
  unfold delete, store_wf; intros Hwf.
  destruct (lookup (st_kvs st) k); simpl; auto.
  apply Forall_forall; intros e He.
  apply filter_In in He as [He _].
  exact (proj1 (Forall_forall _ _) Hwf e He).
Qed.

Lemma lookup_put_same st k v l st' :
  put st k v l = Some st' ->
  exists c, lookup (st_kvs st') k = Some (mkKV k v l c).
Proof.
  unfold put; intros H.
  destruct (lease_live st l); [|discriminate].
  inversion H; subst; clear H; simpl.
  destruct (lookup (st_kvs st) k) as [e|] eqn:E.
  - exists (kv_create e); rewrite lookup_upd, E; reflexivity.
  - exists (S (st_rev st)).
    rewrite lookup_app_one by exact E; simpl; rewrite String.eqb_refl; auto.
Qed.

Lemma lookup_upd_other kvs k k' v l :
  k' <> k ->
  lookup (map (fun e => if String.eqb (kv_key e) k
                        then mkKV k v l (kv_create e) else e) kvs) k'
  = lookup kvs k'.
Proof.
  intros Hne; induction kvs as [|a r IH]; simpl; auto.
  destruct (String.eqb_spec (kv_key a) k) as [Hk|Hk]; simpl.
  - destruct (String.eqb_spec k k'); [congruence|].
    destruct (String.eqb_spec (kv_key a) k'); [congruence | exact IH].
  - destruct (String.eqb (kv_key a) k'); auto.
Qed.

Lemma lookup_app_other kvs x k :
  kv_key x <> k -> lookup (kvs ++ [x]) k = lookup kvs k.
Proof.
  intros Hne; induction kvs as [|a r IH]; simpl.
  - destruct (String.eqb_spec (kv_key x) k); congruence.
  - destruct (String.eqb (kv_key a) k); auto.
Qed.

Lemma lookup_put_other st k v l st' k' :
  put st k v l = Some st' -> k' <> k ->
  lookup (st_kvs st') k' = lookup (st_kvs st) k'.
Proof.
  unfold put; intros H Hne.
  destruct (lease_live st l); [|discriminate].
  inversion H; subst; clear H; simpl.
  destruct (lookup (st_kvs st) k).
  - apply lookup_upd_other; exact Hne.
  - apply lookup_app_other; simpl; congruence.
Qed.

Lemma wf_create_revision_0 st k :
  store_wf st -> create_revision st k = 0 -> lookup (st_kvs st) k = None.
Proof.
  unfold create_revision, store_wf; intros Hwf H0.
  destruct (lookup (st_kvs st) k) as [e|] eqn:E; auto.
  exfalso; apply lookup_key in E as [_ Hin].
  pose proof (proj1 (Forall_forall _ _) Hwf e Hin); simpl in *; lia.
Qed.

(** ** The lock: steps and reachability *)

(** Any interleaving of program steps, watch closes and lease expiries. *)
Inductive reach : world -> world -> Prop :=
| R_refl w : reach w w
| R_step w w' w'' a :
    run_action w a = Some w' -> reach w' w'' -> reach w w''.

Lemma run_reach w tr w' : run w tr = Some w' -> reach w w'.
Proof.
  revert w; induction tr as [|a r IH]; simpl; intros w H.
  - inversion H; constructor.
  - destruct (run_action w a) as [w1|] eqn:E; [|discriminate].
    eapply R_step; eauto.
Qed.

Lemma proc_step_lease st p st' p' :
  proc_step st p = Some (st', p') -> p_lease p' = p_lease p.
Proof.
  unfold proc_step; intros H.
  destruct (p_pc p).
  - destruct (lock_txn st (p_lease p)) as [|[|] ?];
      inversion H; reflexivity.
  - inversion H; reflexivity.
  - destruct (nth_error (st_events st) n) as [[|k]|]; try discriminate.
    + inversion H; reflexivity.
    + destruct (String.eqb k lockKey); inversion H; reflexivity.
  - inversion H; reflexivity.
  - discriminate.
  - discriminate.
Qed.

(** A program step either leaves the store alone and does not enter the
    critical section, or is a succeeded conditional write, or is the
    unlocking [Delete]. *)
Lemma proc_step_cases st p st' p' :
  proc_step st p = Some (st', p') ->
  (st' = st /\ p_pc p' <> PCrit) \/
  (p_pc p = PAttempt /\ create_revision st lockKey = 0 /\
   put st lockKey "locked" (p_lease p) = Some st' /\
   p_pc p' = PCrit /\ p_acq p' = true) \/
  (p_pc p = PCrit /\ st' = delete st lockKey /\ p_pc p' = PDone).
Proof.
  unfold proc_step; intros H.
  destruct (p_pc p) eqn:Hpc.
  - unfold lock_txn in H.
    destruct (Nat.eqb (create_revision st lockKey) 0) eqn:Hc.
    + destruct (put st lockKey "locked" (p_lease p)) as [s2|] eqn:Hput;
        injection H as Hst Hp'; subst st' p'.
      * right; left; apply Nat.eqb_eq in Hc; auto.
      * left; split; [reflexivity | simpl; discriminate].
    + injection H as Hst Hp'; subst st' p'.
      left; split; [reflexivity | simpl; discriminate].
  - injection H as Hst Hp'; subst st' p'.
    left; split; [reflexivity | simpl; discriminate].
  - destruct (nth_error (st_events st) n) as [[|k]|]; try discriminate.
    + injection H as Hst Hp'; subst st' p'.
      left; split; [reflexivity | simpl; discriminate].
    + destruct (String.eqb k lockKey); injection H as Hst Hp'; subst st' p';
        left; split; try reflexivity; simpl; discriminate.
  - injection H as Hst Hp'; subst st' p'; right; right; auto.
  - discriminate.
  - discriminate.
Qed.

(** The lock invariant: every process in its critical section got there
    through a succeeded transaction, and the lock key is bound to its
    lease; leases are per-process. *)
Definition lock_inv (w : world) : Prop :=
  store_wf (w_store w) /\
  NoDup (map p_lease (w_procs w)) /\
  forall i p, nth_error (w_procs w) i = Some p -> p_pc p = PCrit ->
    p_acq p = true /\
    exists e, lookup (st_kvs (w_store w)) lockKey = Some e /\
              kv_lease e = p_lease p.

Lemma lock_inv_crit_unique w i j p q :
  lock_inv w ->
  nth_error (w_procs w) i = Some p -> p_pc p = PCrit ->
  nth_error (w_procs w) j = Some q -> p_pc q = PCrit ->
  i = j.
Proof.
  intros (_ & Hnd & Hcrit) Hp Hpc Hq Hqc.
  destruct (Hcrit i p Hp Hpc) as (_ & e & He & Hel).
  destruct (Hcrit j q Hq Hqc) as (_ & e' & He' & Hel').
  rewrite He in He'; inversion He'; subst e'.
  apply (proj1 (NoDup_nth_error _) Hnd).
  - rewrite length_map; apply nth_error_Some; congruence.
  - rewrite !nth_error_map, Hp, Hq; simpl; congruence.
Qed.

Lemma lock_inv_step w w' i :
  lock_inv w -> run_action w (AProc i) = Some w' -> lock_inv w'.
Proof.
  destruct w as [st ps]; simpl; intros Hinv H.
  destruct (nth_error ps i) as [p|] eqn:Hp; [|discriminate].
  destruct (proc_step st p) as [[st' p']|] eqn:Hs; [|discriminate].
  injection H as <-.
  pose proof Hinv as (Hwf & Hnd & Hcrit); simpl in *.
  assert (Hl : p_lease p' = p_lease p) by (eapply proc_step_lease; eauto).
  destruct (proc_step_cases _ _ _ _ Hs)
    as [(-> & Hnc) | [(Hpc & Hc0 & Hput & Hpc' & Ha') | (Hpc & -> & Hpc')]];
    (split; [| split; [simpl; rewrite (map_list_set_same _ _ _ _ _ Hp Hl);
                       exact Hnd |]]); simpl.
  - exact Hwf.
  - intros j q Hq Hqc.
    destruct (Nat.eq_dec i j) as [<-|Hij].
    + rewrite (nth_error_list_set_eq _ _ _ _ Hp) in Hq.
      injection Hq as <-; contradiction.
    + rewrite nth_error_list_set_neq in Hq by exact Hij.
      exact (Hcrit j q Hq Hqc).
  - eapply put_wf; eauto.
  - intros j q Hq Hqc.
    destruct (Nat.eq_dec i j) as [<-|Hij].
    + rewrite (nth_error_list_set_eq _ _ _ _ Hp) in Hq.
      injection Hq as <-; split; [exact Ha'|].
      destruct (lookup_put_same _ _ _ _ _ Hput) as [c Hc].
      eexists; split; [exact Hc | simpl; congruence].
    + rewrite nth_error_list_set_neq in Hq by exact Hij.
      destruct (Hcrit j q Hq Hqc) as (_ & e & He & _).
      rewrite (wf_create_revision_0 _ _ Hwf Hc0) in He; discriminate.
  - apply delete_wf; exact Hwf.
  - intros j q Hq Hqc.
    destruct (Nat.eq_dec i j) as [<-|Hij].
    + rewrite (nth_error_list_set_eq _ _ _ _ Hp) in Hq.
      injection Hq as <-; rewrite Hpc' in Hqc; discriminate.
    + rewrite nth_error_list_set_neq in Hq by exact Hij.
      exfalso; apply Hij.
      eapply (lock_inv_crit_unique (mkWorld st ps)); eauto.
Qed.

Lemma holder_lease_false w l i p :
  holder_lease w l = false -> nth_error (w_procs w) i = Some p ->
  p_pc p = PCrit -> p_lease p <> l.
Proof.
  unfold holder_lease; intros H Hp Hpc Heq.
  apply Bool.not_true_iff_false in H; apply H.
  apply existsb_exists; exists p; split; [eapply nth_error_In; eauto|].
  rewrite Hpc, Heq; apply Nat.eqb_refl.
Qed.

(** An expiry keeps the invariant when no process in its critical section
    holds the lease: the lock key is not bound to it. *)
Lemma lock_inv_expire w w' l :
  lock_inv w -> holder_lease w l = false ->
  run_action w (AExpire l) = Some w' -> lock_inv w'.
Proof.
  intros (Hwf & Hnd & Hcrit) Hh H; simpl in H.
  destruct (existsb (Nat.eqb l) (st_leases (w_store w))); [|discriminate].
  injection H as <-; split; [|split; [exact Hnd|]]; simpl.
  - unfold store_wf in *; simpl.
    apply Forall_forall; intros e He; apply filter_In in He as [He _].
    exact (proj1 (Forall_forall _ _) Hwf e He).
  - intros i p Hp Hpc.
    destruct (Hcrit i p Hp Hpc) as (Ha & e & He & Hel).
    split; [exact Ha|]; exists e; split; [|exact Hel].
    apply lookup_filter_keep; [exact He|].
    pose proof (holder_lease_false _ _ _ _ Hh Hp Hpc) as Hne.
    rewrite Hel; apply Bool.negb_true_iff, Nat.eqb_neq; exact Hne.
Qed.

Lemma lock_inv_lock_reach w w' : lock_inv w -> lock_reach w w' -> lock_inv w'.
Proof.
  intros Hinv Hr; induction Hr; auto.
  - apply IHHr; eapply lock_inv_step; eauto.
  - apply IHHr; eapply lock_inv_expire; eauto.
Qed.

Lemma lock_inv_init st ps :
  store_wf st -> NoDup (map p_lease ps) ->
  Forall (fun p => p_pc p = PAttempt) ps ->
  lock_inv (mkWorld st ps).
Proof.
  intros Hwf Hnd Hall; split; [exact Hwf | split; [exact Hnd |]]; simpl.
  intros i p Hp Hpc.
  apply nth_error_In in Hp.
  rewrite (proj1 (Forall_forall _ _) Hall p Hp) in Hpc; discriminate.
Qed.

Lemma run_lock_reach w tr w' : run_lock w tr = Some w' -> lock_reach w w'.
Proof.
  revert w; induction tr as [|a r IH]; intros w H.
  - injection H as <-; constructor.
  - destruct a as [i|i|l]; cbn [run_lock] in H; [| discriminate |].
    + destruct (run_action w (AProc i)) as [w1|] eqn:E; [|discriminate].
      eapply LR_proc; eauto.
    + destruct (holder_lease w l) eqn:Hh; [discriminate|].
      destruct (run_action w (AExpire l)) as [w1|] eqn:E; [|discriminate].
      eapply LR_expire; eauto.
Qed.

Definition proc_at (w : world) (i : nat) : option proc := nth_error (w_procs w) i.

(** Three contenders, each with its own live lease (1, 2, 3). *)
Definition lock_w0 : world :=
  mkWorld (mkStore [] 0 [1; 2; 3] 4 [])
          [mkProc 1 PAttempt false; mkProc 2 PAttempt false;
           mkProc 3 PAttempt false].

(** ** Claims about the lock *)

(** C1 (amended): as long as no holder's lease expires and no watch stream
    closes (program steps, and expiries of leases that no process in its
    critical section holds), at most one process is in its critical
    section holding the lock (reached through a succeeded transaction),
    from any start where every process is at [getlock] with its own lease. *)
Theorem lock_mutual_exclusion_no_expiry st0 ps w i j :
  store_wf st0 ->
  NoDup (map p_lease ps) ->
  Forall (fun p => p_pc p = PAttempt) ps ->
  lock_reach (mkWorld st0 ps) w ->
  held w i = true -> held w j = true -> i = j.
Proof.
  intros Hwf Hnd Hall Hr Hi Hj.
  pose proof (lock_inv_lock_reach _ _ (lock_inv_init _ _ Hwf Hnd Hall) Hr)
    as Hinv.
  unfold held in Hi, Hj.
  destruct (nth_error (w_procs w) i) as [p|] eqn:Hp; [|discriminate].
  destruct (nth_error (w_procs w) j) as [q|] eqn:Hq; [|discriminate].
  destruct (p_pc p) eqn:Hpc; try discriminate.
  destruct (p_pc q) eqn:Hqc; try discriminate.
  eapply lock_inv_crit_unique; eauto.
Qed.

(** Process 0 acquires, process 1 finds the lock taken and heads for the
    watch, then process 1's lease expires. *)
Definition lock_w_waiter_expired : world :=
  match run_lock lock_w0 [AProc 0; AProc 1; AExpire 2] with
  | Some w => w
  | None => lock_w0
  end.

Lemma lock_mutual_exclusion_no_expiry_witness :
  held lock_w_waiter_expired 0 = true /\ 0 = 0.
Proof.
  split; [vm_compute; reflexivity|].
  apply (lock_mutual_exclusion_no_expiry (w_store lock_w0) (w_procs lock_w0)
           lock_w_waiter_expired 0 0).
  - unfold store_wf; simpl; constructor.
  - simpl; repeat constructor; simpl; lia.
  - simpl; repeat constructor.
  - apply run_lock_reach with (tr := [AProc 0; AProc 1; AExpire 2]).
    vm_compute; reflexivity.
  - vm_compute; reflexivity.
  - vm_compute; reflexivity.
Defined.

(** C1 (counterexample): process 0 acquires, its lease expires (the store
    deletes the lock key), process 1's conditional write succeeds; both
    are in the critical section through a succeeded transaction while the
    key exists. *)
Lemma lock_two_holders_after_lease_expiry :
  exists w, reach lock_w0 w /\ held w 0 = true /\ held w 1 = true /\
            create_revision (w_store w) lockKey <> 0.
Proof.
  eexists; split.
  - apply (run_reach lock_w0 [AProc 0; AExpire 1; AProc 1]).
    vm_compute; reflexivity.
  - vm_compute; repeat split; discriminate.
Qed.

Definition step_store (st : store) (p : proc) : store :=
  match proc_step st p with Some (s, _) => s | None => st end.

Definition step_proc (st : store) (p : proc) : proc :=
  match proc_step st p with Some (_, q) => q | None => p end.

(** C2: an attempt at [getlock] is one step whose store effect is exactly
    the conditional write; the process is in the critical section after
    it exactly when that transaction succeeded, and then the condition
    [CreateRevision(lockKey) = 0] held, the key is bound to its lease and
    nothing else touched the store. *)
Theorem lock_attempt_single_txn st p st' p' :
  p_pc p = PAttempt -> proc_step st p = Some (st', p') ->
  (p_pc p' = PCrit <-> lock_txn st (p_lease p) = TxnOk true st') /\
  (p_pc p' = PCrit ->
   p_acq p' = true /\ create_revision st lockKey = 0 /\
   put st lockKey "locked" (p_lease p) = Some st' /\
   exists c, lookup (st_kvs st') lockKey
             = Some (mkKV lockKey "locked" (p_lease p) c)).
Proof.
  unfold proc_step; intros Hpc H; rewrite Hpc in H.
  unfold lock_txn in *.
  destruct (Nat.eqb (create_revision st lockKey) 0) eqn:Hc.
  - apply Nat.eqb_eq in Hc.
    destruct (put st lockKey "locked" (p_lease p)) as [s2|] eqn:Hput;
      injection H as <- <-; simpl.
    + split; [split; reflexivity|].
      intros _; repeat split; auto.
      exact (lookup_put_same _ _ _ _ _ Hput).
    + split; [split; discriminate | discriminate].
  - injection H as <- <-; simpl.
    split; [split; discriminate | discriminate].
Qed.

Lemma lock_attempt_single_txn_witness :
  p_acq (step_proc (w_store lock_w0) (mkProc 1 PAttempt false)) = true.
Proof.
  destruct (lock_attempt_single_txn (w_store lock_w0) (mkProc 1 PAttempt false)
              (step_store (w_store lock_w0) (mkProc 1 PAttempt false))
              (step_proc (w_store lock_w0) (mkProc 1 PAttempt false))
              eq_refl ltac:(vm_compute; reflexivity)) as [_ H].
  exact (proj1 (H ltac:(vm_compute; reflexivity))).
Defined.

(** C3 (code bug): a waiter leaves the wait without any Delete event when
    its watch stream closes, and goes on to step 6; and a waiter whose
    conditional write failed just before the holder's Delete starts its
    watch after that event and stays blocked although the key is free. *)
Theorem lock_wait_ends_without_delete :
  (exists w, run lock_w0 [AProc 0; AProc 1; AProc 1; AClose 1] = Some w /\
     ~ In (EvDelete lockKey) (st_events (w_store w)) /\
     proc_at w 1 = Some (mkProc 2 PCrit false)) /\
  (exists w, run lock_w0 [AProc 0; AProc 1; AProc 0; AProc 1] = Some w /\
     In (EvDelete lockKey) (st_events (w_store w)) /\
     lookup (st_kvs (w_store w)) lockKey = None /\
     proc_at w 1 = Some (mkProc 2 (PWait 2) false) /\
     run_action w (AProc 1) = None).
Proof.
  split; eexists; (split; [vm_compute; reflexivity|]); vm_compute.
  - split; [intros H; repeat (destruct H as [H|H]; [discriminate|]);
             destruct H | reflexivity].
  - repeat split; auto.
Qed.

(** C4 (code bug): when the watch stream of waiter 1 closes, it enters
    the critical section with no error and without the lock, its step-7
    Delete removes holder 0's key, and process 2 then acquires while 0 is
    still in its critical section. *)
Theorem lock_watch_close_enters_unlocked :
  exists w w',
    run lock_w0 [AProc 0; AProc 1; AProc 1; AClose 1] = Some w /\
    held w 0 = true /\ proc_at w 1 = Some (mkProc 2 PCrit false) /\
    run w [AProc 1; AProc 2] = Some w' /\
    held w' 0 = true /\ held w' 2 = true.
Proof.
  do 2 eexists; split; [vm_compute; reflexivity|].
  split; [vm_compute; reflexivity|].
  split; [vm_compute; reflexivity|].
  split; [vm_compute; reflexivity|].
  split; vm_compute; reflexivity.
Qed.





(** ** Registry and discovery: helper facts *)

Definition reg_key (uuid : nat -> string) (s : Service) (u : nat) : string :=
  String.append (String.append (svc_name s) "-") (uuid u).

Lemma prefix_refl_append s t : String.prefix s (String.append s t) = true.
Proof.
  induction s as [|c s' IH]; simpl.
  - destruct t; reflexivity.
  - destruct (Ascii.ascii_dec c c); [exact IH | congruence].
Qed.

Lemma prefix_append_r s t x :
  String.prefix s t = true -> String.prefix s (String.append t x) = true.
Proof.
  revert t; induction s as [|c s' IH]; intros t H.
  - destruct (String.append t x); reflexivity.
  - destruct t as [|b t']; simpl in *; [discriminate|].
    destruct (Ascii.ascii_dec c b); [apply IH; exact H | discriminate].
Qed.

Lemma append_cancel_l a x y :
  String.append a x = String.append a y -> x = y.
Proof.
  induction a as [|c a IH]; simpl; auto.
  intros H; injection H as H; exact (IH H).
Qed.

Lemma uuid_unary_inj a b : uuid_unary a = uuid_unary b -> a = b.
Proof.
  revert b; induction a as [|a' IH]; intros [|b'] H; simpl in H;
    try discriminate; auto.
  injection H as H; f_equal; exact (IH b' H).
Qed.

Lemma grant_live st : In (st_next_lease st) (st_leases (snd (grant st))).
Proof. simpl; apply in_or_app; right; left; reflexivity. Qed.

Lemma put_after_grant st k v :
  exists st2, put (snd (grant st)) k v (fst (grant st)) = Some st2.
Proof.
  unfold put, lease_live; simpl.
  rewrite existsb_app; simpl; rewrite Nat.eqb_refl, !orb_true_r; simpl.
  eexists; reflexivity.
Qed.

(** The two outcomes of one [Registry] call: nothing written and an error,
    or exactly one record written, under the fresh key, bound to the lease
    the call granted. *)
Lemma Registry_outcome uuid flt st u r s st' u' r' err :
  Registry uuid flt st u r s = (st', u', r', err) ->
  (st_kvs st' = st_kvs st /\ err <> None) \/
  (r_leaseID r' = st_next_lease st /\ In (r_leaseID r') (st_leases st') /\
   u' = S u /\
   (exists c, lookup (st_kvs st') (reg_key uuid s u)
              = Some (mkKV (reg_key uuid s u) (svc_addr s) (r_leaseID r') c)) /\
   (forall k, k <> reg_key uuid s u ->
              lookup (st_kvs st') k = lookup (st_kvs st) k)).
Proof.
  unfold Registry; intros H.
  destruct (f_grant flt).
  { injection H as <- <- <- <-; left; split; [reflexivity | discriminate]. }
  destruct (put_after_grant st (reg_key uuid s u) (svc_addr s)) as [st2 Hput].
  unfold reg_key in Hput; simpl in Hput.
  simpl in H.
  destruct (f_put flt).
  { injection H as <- <- <- <-; left; split; [reflexivity | discriminate]. }
  rewrite Hput in H.
  assert (Hlive : In (st_next_lease st) (st_leases st2)).
  { unfold put in Hput; destruct (lease_live _ _); [|discriminate].
    injection Hput as <-; simpl; apply in_or_app; right; left; reflexivity. }
  assert (Hsame := lookup_put_same _ _ _ _ _ Hput).
  assert (Hother := fun k' => lookup_put_other _ _ _ _ _ k' Hput).
  destruct (f_keepalive flt); injection H as <- <- <- <-; right; simpl;
    (split; [reflexivity | split; [exact Hlive | split; [reflexivity |]]]);
    (split; [exact Hsame | intros k Hk; exact (Hother k Hk)]).
Qed.

Lemma map_nth_error_seq {A} (l : list A) :
  map (nth_error l) (seq 0 (length l)) = map Some l.
Proof.
  induction l as [|a r IH]; simpl; auto.
  f_equal. rewrite <- seq_shift, map_map. exact IH.
Qed.

Definition order_service : Service := mkService "order_service" "localhost:8080".

(** ** Claims about registration and discovery *)

(** C6 (amended): a failed grant leaves store and registry untouched; a
    failed put after a successful grant returns the error with the granted
    lease still live, no record written, and [r.leaseID] already set to
    that lease: the lease is not revoked. *)
Theorem Registry_failure_paths uuid flt st u r s :
  (f_grant flt = true -> Registry uuid flt st u r s = (st, u, r, Some ErrConn)) /\
  (f_grant flt = false -> f_put flt = true ->
   Registry uuid flt st u r s
   = (snd (grant st), S u,
      mkRegistry (r_open r) (st_next_lease st) (r_leaseTTL r), Some ErrConn) /\
   st_kvs (snd (grant st)) = st_kvs st /\
   In (st_next_lease st) (st_leases (snd (grant st)))).
Proof.
  unfold Registry; split.
  - intros H; rewrite H; reflexivity.
  - intros Hg Hp; rewrite Hg; simpl; rewrite Hp.
    split; [reflexivity | split; [reflexivity | apply grant_live]].
Qed.

Lemma Registry_failure_paths_witness :
  In 1 (st_leases (snd (grant empty_store))).
Proof.
  exact (proj2 (proj2 (proj2 (Registry_failure_paths uuid_unary
            (mkFaults false true false false false) empty_store 0
            (NewEtcdRegistry LeaseTTL) order_service) eq_refl eq_refl))).
Defined.

(** C6 (counterexample): the put fails after the grant; the call returns
    an error and leaves lease 1 live with no record bound to it. *)
Lemma Registry_put_failure_leaks_lease :
  match Registry uuid_unary (mkFaults false true false false false)
          empty_store 0 (NewEtcdRegistry LeaseTTL) order_service with
  | (st', _, r', err) =>
      err <> None /\ r_leaseID r' = 1 /\
      In (r_leaseID r') (st_leases st') /\
      filter (fun e => Nat.eqb (kv_lease e) (r_leaseID r')) (st_kvs st') = []
  end.
Proof.
  vm_compute; split; [discriminate|].
  split; [reflexivity | split; [left; reflexivity | reflexivity]].
Qed.

(** C7 (code bug): [TestRegistry]'s sequence (two registrations of
    order_service, then [DeRegistry]) on an empty store: [DeRegistry]
    revokes only the last lease, so the process's first record stays,
    bound to a live lease, and [GetServiceAddr] still resolves it. *)
Theorem DeRegistry_keeps_earlier_record :
  match Registry uuid_unary no_faults empty_store 0
          (NewEtcdRegistry LeaseTTL) order_service with
  | (st1, u1, r1, e1) =>
      match Registry uuid_unary no_faults st1 u1 r1 order_service with
      | (st2, _, r2, e2) =>
          match DeRegistry no_faults st2 r2 with
          | (st3, _, e3) =>
              e1 = None /\ e2 = None /\ e3 = None /\
              get_prefix st3 "order_service"
                = [mkKV "order_service-u" "localhost:8080" 1 1] /\
              In 1 (st_leases st3) /\
              GetServiceAddr false (fun _ => 0) st3 "order_service"
                = Some ("localhost:8080", None)
          end
      end
  end.
Proof.
  vm_compute; repeat split; auto.
Qed.

(** C8: [GetServiceAddr] reads exactly the records whose key starts with
    the name; it returns the "service not found" error exactly when that
    read succeeds with no record; otherwise draw [ri] of [rand.Intn(n)]
    returns the address of record [ri], so the [n] equally likely draws
    give one outcome per record, in the order of the read. *)
Theorem GetServiceAddr_spec gf intn st name :
  (GetServiceAddr gf intn st name = Some ("", Some ErrServiceNotFound) <->
   gf = false /\ get_prefix st name = []) /\
  (forall e, In e (get_prefix st name) <->
             In e (st_kvs st) /\ String.prefix name (kv_key e) = true) /\
  (get_prefix st name <> [] ->
   map (fun ri => GetServiceAddr false (fun _ => ri) st name)
       (seq 0 (length (get_prefix st name)))
   = map (fun e => Some (kv_value e, None)) (get_prefix st name)).
Proof.
  split; [|split].
  - unfold GetServiceAddr; split.
    + destruct gf; [intros H; injection H as H; discriminate|].
      destruct (get_prefix st name) as [|e r]; [auto|]; simpl.
      destruct (nth_error (e :: r) (intn (S (length r)))); [|discriminate].
      intros H; injection H as _ H; discriminate.
    + intros [-> ->]; reflexivity.
  - intros e; unfold get_prefix; apply filter_In.
  - intros Hne.
    assert (Hlen : Nat.eqb (length (get_prefix st name)) 0 = false).
    { destruct (get_prefix st name); [contradiction | reflexivity]. }
    transitivity (map (fun o : option kv => match o with
                                | Some e => Some (kv_value e, @None error)
                                | None => None
                                end)
                      (map (nth_error (get_prefix st name))
                           (seq 0 (length (get_prefix st name))))).
    + rewrite map_map; apply map_ext; intros ri.
      unfold GetServiceAddr; simpl; rewrite Hlen; reflexivity.
    + rewrite map_nth_error_seq, map_map; reflexivity.
Qed.

Lemma GetServiceAddr_spec_witness :
  map (fun ri => GetServiceAddr false (fun _ => ri)
                   (mkStore [mkKV "order_service-a" "h1" 1 1;
                             mkKV "order_service-b" "h2" 2 2] 2 [1; 2] 3 [])
                   "order_service") (seq 0 2)
  = [Some ("h1", None); Some ("h2", None)].
Proof.
  exact (proj2 (proj2 (GetServiceAddr_spec false (fun _ => 0)
           (mkStore [mkKV "order_service-a" "h1" 1 1;
                     mkKV "order_service-b" "h2" 2 2] 2 [1; 2] 3 [])
           "order_service")) ltac:(vm_compute; discriminate)).
Defined.

(** C9: every [Registry] call either writes nothing and returns an error,
    or writes exactly one record, under [name ++ "-" ++ suffix], bound to
    the lease it granted; two successful calls for the same name write two
    records with distinct keys starting with the name, on distinct leases. *)
Theorem Registry_one_record_per_call uuid :
  (forall a b, uuid a = uuid b -> a = b) ->
  (forall flt st u r s st' u' r' err,
     Registry uuid flt st u r s = (st', u', r', err) ->
     (st_kvs st' = st_kvs st /\ err <> None) \/
     (String.prefix (svc_name s) (reg_key uuid s u) = true /\
      (exists c, lookup (st_kvs st') (reg_key uuid s u)
                 = Some (mkKV (reg_key uuid s u) (svc_addr s) (r_leaseID r') c)) /\
      (forall k, k <> reg_key uuid s u ->
                 lookup (st_kvs st') k = lookup (st_kvs st) k))) /\
  (forall flt1 flt2 st u r s1 s2 st1 u1 r1 st2 u2 r2,
     svc_name s1 = svc_name s2 ->
     Registry uuid flt1 st u r s1 = (st1, u1, r1, None) ->
     Registry uuid flt2 st1 u1 r1 s2 = (st2, u2, r2, None) ->
     reg_key uuid s1 u <> reg_key uuid s2 u1 /\
     String.prefix (svc_name s1) (reg_key uuid s1 u) = true /\
     String.prefix (svc_name s1) (reg_key uuid s2 u1) = true /\
     (exists c1, lookup (st_kvs st2) (reg_key uuid s1 u)
                 = Some (mkKV (reg_key uuid s1 u) (svc_addr s1) (r_leaseID r1) c1)) /\
     (exists c2, lookup (st_kvs st2) (reg_key uuid s2 u1)
                 = Some (mkKV (reg_key uuid s2 u1) (svc_addr s2) (r_leaseID r2) c2)) /\
     r_leaseID r1 <> r_leaseID r2).
Proof.
  intros Hinj; split.
  - intros flt st u r s st' u' r' err H.
    destruct (Registry_outcome _ _ _ _ _ _ _ _ _ _ H)
      as [Hn | (_ & _ & _ & Hk & Ho)]; [left; exact Hn | right].
    split; [unfold reg_key; apply prefix_append_r, prefix_refl_append|].
    split; [exact Hk | exact Ho].
  - intros flt1 flt2 st u r s1 s2 st1 u1 r1 st2 u2 r2 Hn H1 H2.
    destruct (Registry_outcome _ _ _ _ _ _ _ _ _ _ H1)
      as [(_ & Hne) | (Hl1 & Hin1 & Hu1 & Hk1 & _)]; [congruence|].
    destruct (Registry_outcome _ _ _ _ _ _ _ _ _ _ H2)
      as [(_ & Hne) | (Hl2 & _ & _ & Hk2 & Ho2)]; [congruence|].
    subst u1.
    assert (Hkey : reg_key uuid s1 u <> reg_key uuid s2 (S u)).
    { unfold reg_key; rewrite Hn; intros He.
      apply append_cancel_l, Hinj in He; lia. }
    split; [exact Hkey|].
    split; [unfold reg_key; apply prefix_append_r, prefix_refl_append|].
    split; [unfold reg_key; rewrite Hn; apply prefix_append_r, prefix_refl_append|].
    split; [rewrite (Ho2 _ Hkey); exact Hk1|].
    split; [exact Hk2|].
    (* the second grant hands out a fresh id, larger than every live one *)
    unfold Registry in H1; destruct (f_grant flt1); [discriminate|].
    simpl in H1; destruct (f_put flt1); [discriminate|].
    destruct (put _ _ _ _) as [s3|] eqn:Hp; [|discriminate].
    assert (Hnext : st_next_lease st1 = S (st_next_lease st)).
    { unfold put in Hp; destruct (lease_live _ _); [|discriminate].
      injection Hp as <-; destruct (f_keepalive flt1);
        inversion H1; reflexivity. }
    rewrite Hl1, Hl2, Hnext; lia.
Qed.

Lemma Registry_one_record_per_call_witness :
  reg_key uuid_unary order_service 0 <> reg_key uuid_unary order_service 1.
Proof.
  exact (proj1 (proj2 (Registry_one_record_per_call uuid_unary uuid_unary_inj)
           no_faults no_faults empty_store 0 (NewEtcdRegistry LeaseTTL)
           order_service order_service _ _ _ _ _ _ eq_refl
           ltac:(vm_compute; reflexivity) ltac:(vm_compute; reflexivity))).
Defined.

(** C10: the prefix read has no separator check: after a service whose
    name extends [short] registers, [GetServiceAddr short] has a draw that
    returns that service's address. *)
Theorem GetServiceAddr_matches_longer_name uuid st u r short rest addr :
  rest <> "" ->
  match Registry uuid no_faults st u r
          (mkService (String.append short rest) addr) with
  | (st', _, _, err) =>
      err = None /\
      exists ri, GetServiceAddr false (fun _ => ri) st' short
                 = Some (addr, None)
  end.
Proof.
  intros _.
  set (s := mkService (String.append short rest) addr).
  destruct (Registry uuid no_faults st u r s) as [[[st' u'] r'] err] eqn:H.
  assert (Herr : err = None).
  { unfold Registry in H; simpl in H.
    destruct (put_after_grant st (reg_key uuid s u) addr) as [st2 Hput].
    unfold reg_key in Hput; simpl in Hput; rewrite Hput in H.
    injection H as _ _ _ <-; reflexivity. }
  split; [exact Herr|].
  destruct (Registry_outcome _ _ _ _ _ _ _ _ _ _ H)
    as [(_ & Hne) | (_ & _ & _ & [c Hk] & _)]; [contradiction|].
  apply lookup_key in Hk as [_ Hin].
  assert (Hg : In (mkKV (reg_key uuid s u) addr (r_leaseID r') c)
                  (get_prefix st' short)).
  { unfold get_prefix; apply filter_In; split; [exact Hin|].
    unfold reg_key; simpl.
    apply prefix_append_r, prefix_append_r, prefix_refl_append. }
  apply In_nth_error in Hg as [ri Hri].
  exists ri; unfold GetServiceAddr; simpl.
  destruct (get_prefix st' short) as [|e l] eqn:Hgp;
    [destruct ri; discriminate|].
  simpl; rewrite Hri; reflexivity.
Qed.

Lemma GetServiceAddr_matches_longer_name_witness :
  exists ri,
    GetServiceAddr false (fun _ => ri)
      (match Registry uuid_unary no_faults empty_store 0
               (NewEtcdRegistry LeaseTTL) order_service with
       | (st', _, _, _) => st' end) "order"
    = Some ("localhost:8080", None).
Proof.
  exact (proj2 (GetServiceAddr_matches_longer_name uuid_unary empty_store 0
           (NewEtcdRegistry LeaseTTL) "order" "_service" "localhost:8080"
           ltac:(discriminate))).
Defined.

(** * Further properties of the code *)

(** ** SpinLock *)

Lemma count_list_set {A} (f : A -> bool) (l : list A) i x y :
  nth_error l i = Some y ->
  length (filter f (list_set l i x)) + (if f y then 1 else 0)
  = length (filter f l) + (if f x then 1 else 0).
Proof.
  revert i; induction l as [|a r IH]; intros [|i] H; simpl in *;
    try discriminate.
  - injection H as <-; destruct (f a), (f x); simpl; lia.
  - specialize (IH i H); destruct (f a); simpl; lia.
Qed.

Definition spin_inv (w : spin_world) : Prop :=
  sw_flag w = Z.of_nat (holders w) /\ holders w <= 1.

Lemma spin_inv_step w w' i : spin_inv w -> spin_run w i = Some w' -> spin_inv w'.
Proof.
  unfold spin_inv, spin_run, holders; destruct w as [flag ts]; simpl.
  intros [Hf Hle] H.
  destruct (nth_error ts i) as [t|] eqn:Ht; [|discriminate].
  destruct t; simpl in H.
  - injection H as <-; simpl.
    pose proof (count_list_set is_held ts i SpinLoop SpinIdle Ht); simpl in *.
    lia.
  - unfold cas_int32 in H.
    destruct (Z.eqb_spec flag 0) as [H0|H0]; injection H as <-; simpl.
    + pose proof (count_list_set is_held ts i SpinHeld SpinLoop Ht);
        simpl in *; lia.
    + pose proof (count_list_set is_held ts i SpinLoop SpinLoop Ht);
        simpl in *; lia.
  - injection H as <-; simpl.
    pose proof (count_list_set is_held ts i SpinIdle SpinHeld Ht);
      simpl in *; lia.
Qed.

(** X1: started with [flag = 0] and no goroutine inside, every interleaving
    of [Lock] CAS attempts and [Unlock] stores by the holder keeps [flag]
    equal to the number of goroutines holding the lock, and that number is
    at most one. *)
Theorem spin_lock_flag_counts_holders ts w :
  Forall (fun t => is_held t = false) ts ->
  spin_reach (mkSpinWorld 0 ts) w ->
  sw_flag w = Z.of_nat (holders w) /\ holders w <= 1.
Proof.
  intros Hall Hr.
  assert (Hn : filter is_held ts = []).
  { clear Hr; induction ts as [|t r IH]; simpl; auto.
    inversion Hall as [|? ? Ht Hr']; subst; rewrite Ht; apply IH; exact Hr'. }
  assert (H0 : spin_inv (mkSpinWorld 0 ts)).
  { unfold spin_inv, holders; simpl.
    rewrite Hn; simpl; split; [reflexivity | lia]. }
  clear Hall; induction Hr; auto.
  apply IHHr; eapply spin_inv_step; eauto.
Qed.

Lemma spin_lock_flag_counts_holders_witness :
  holders (mkSpinWorld 1 [SpinHeld; SpinLoop]) <= 1.
Proof.
  refine (proj2 (spin_lock_flag_counts_holders [SpinLoop; SpinLoop] _
                   ltac:(repeat constructor) _)).
  eapply SR_step with (i := 0); [vm_compute; reflexivity|].
  eapply SR_step with (i := 1); [vm_compute; reflexivity|].
  apply SR_refl.
Defined.

(** ** TestEtcd: put then get *)

(** X2: once a put succeeds, the exact-key get that follows returns one
    key-value pair holding the key, the value and the lease put, and the
    get of any other key is unchanged. *)
Theorem put_then_get st k v l st' :
  put st k v l = Some st' ->
  (exists c, get_key st' k = [mkKV k v l c]) /\
  (forall k', k' <> k -> get_key st' k' = get_key st k').
Proof.
  intros Hp; split.
  - destruct (lookup_put_same _ _ _ _ _ Hp) as [c Hc].
    exists c; unfold get_key; rewrite Hc; reflexivity.
  - intros k' Hk; unfold get_key; rewrite (lookup_put_other _ _ _ _ _ _ Hp Hk);
      reflexivity.
Qed.

Lemma put_then_get_witness :
  exists c, get_key (match put empty_store "sample_key" "sample_value" NoLease
                     with Some st' => st' | None => empty_store end)
                    "sample_key"
            = [mkKV "sample_key" "sample_value" NoLease c].
Proof.
  exact (proj1 (put_then_get empty_store "sample_key" "sample_value" NoLease
                  (match put empty_store "sample_key" "sample_value" NoLease
                   with Some st' => st' | None => empty_store end)
                  ltac:(vm_compute; reflexivity))).
Defined.

(** ** Constructors and [DeRegistry] *)

(** X3: both constructors reject an empty endpoint list with "etcd
    endpoints cannot be empty" before dialing; a registry that
    [NewEtcdRegistry] returns holds lease id 0, so [DeRegistry] on it before
    any [Registry] fails with lease-not-found, changes no record and leaves
    the connection open. *)
Theorem new_registry_deregister_before_register eps df ttl flt st :
  (eps = [] ->
   NewEtcdRegistry_endpoints eps df ttl = (None, Some ErrEmptyEndpoints) /\
   NewEtcdDiscovery eps df = (None, Some ErrEmptyEndpoints)) /\
  (forall r, NewEtcdRegistry_endpoints eps df ttl = (Some r, None) ->
   ~ In NoLease (st_leases st) -> f_revoke flt = false ->
   r_open r = true /\ r_leaseTTL r = ttl /\
   DeRegistry flt st r = (st, r, Some ErrLeaseNotFound)).
Proof.
  split.
  - intros ->; split; reflexivity.
  - intros r H Hno Hf; unfold NewEtcdRegistry_endpoints in H.
    destruct (Nat.eqb (length eps) 0); [discriminate|].
    destruct df; [discriminate|].
    injection H as <-; split; [reflexivity | split; [reflexivity|]].
    unfold DeRegistry, revoke; rewrite Hf; cbn [r_leaseID].
    destruct (existsb (Nat.eqb 0) (st_leases st)) eqn:E; [|reflexivity].
    apply existsb_exists in E as [x [Hx Hx0]].
    apply Nat.eqb_eq in Hx0; subst x; contradiction.
Qed.

Lemma new_registry_deregister_before_register_witness :
  DeRegistry no_faults empty_store (mkRegistry true 0 5)
  = (empty_store, mkRegistry true 0 5, Some ErrLeaseNotFound).
Proof.
  exact (proj2 (proj2 (proj2 (new_registry_deregister_before_register
           ["localhost:2379"] false 5 no_faults empty_store)
           (mkRegistry true 0 5) eq_refl ltac:(simpl; tauto) eq_refl))).
Defined.

Lemma in_filter_neq l x :
  ~ In x (filter (fun y => negb (Nat.eqb y x)) l).
Proof.
  intros H; apply filter_In in H as [_ H].
  rewrite Nat.eqb_refl in H; discriminate.
Qed.

(** X4: [DeRegistry] on an open client whose revoke call goes through:
    if [r.leaseID] is not a live lease it fails with lease-not-found and
    changes nothing; if it is, it deletes exactly the records bound to
    [r.leaseID] and keeps every other record, the lease is gone, the client
    is closed, [r.leaseID] is kept, and the error is nil or the close
    error. *)
Theorem DeRegistry_effect flt st r :
  r_open r = true ->
  f_revoke flt = false ->
  (~ In (r_leaseID r) (st_leases st) ->
   DeRegistry flt st r = (st, r, Some ErrLeaseNotFound)) /\
  (In (r_leaseID r) (st_leases st) ->
   match DeRegistry flt st r with
   | (st', r', err) =>
       st_kvs st' = filter (fun e => negb (Nat.eqb (kv_lease e) (r_leaseID r)))
                           (st_kvs st) /\
       ~ In (r_leaseID r) (st_leases st') /\
       r_open r' = false /\ r_leaseID r' = r_leaseID r /\
       (err = None \/ err = Some ErrConn)
   end).
Proof.
  intros _ Hf; unfold DeRegistry, revoke; rewrite Hf; split.
  - intros Hn.
    destruct (existsb (Nat.eqb (r_leaseID r)) (st_leases st)) eqn:E;
      [|reflexivity].
    apply existsb_exists in E as [x [Hx Hx0]].
    apply Nat.eqb_eq in Hx0; subst x; contradiction.
  - intros Hin.
    destruct (existsb (Nat.eqb (r_leaseID r)) (st_leases st)) eqn:E.
    2:{ exfalso; apply Bool.not_true_iff_false in E; apply E.
        apply existsb_exists; exists (r_leaseID r); split;
          [exact Hin | apply Nat.eqb_refl]. }
    destruct (f_close flt); simpl in *;
      repeat split; auto; apply in_filter_neq.
Qed.

Lemma DeRegistry_effect_witness :
  match DeRegistry no_faults (snd (grant empty_store)) (mkRegistry true 1 5) with
  | (st', r', err) =>
      st_kvs st' = filter (fun e => negb (Nat.eqb (kv_lease e) 1))
                          (st_kvs (snd (grant empty_store))) /\
      ~ In 1 (st_leases st') /\
      r_open r' = false /\ r_leaseID r' = 1 /\
      (err = None \/ err = Some ErrConn)
  end.
Proof.
  exact (proj2 (DeRegistry_effect no_faults (snd (grant empty_store))
                  (mkRegistry true 1 5) eq_refl eq_refl)
               ltac:(simpl; tauto)).
Defined.

(** ** Registry when grant and put succeed *)

(** X5: once the grant and the put of a [Registry] call succeed, its record
    is stored under the fresh key, bound to the granted lease, which is
    live and kept in [r.leaseID]; the call returns an error exactly when
    the following [KeepAlive] fails, and the record stays written then. *)
Theorem Registry_after_put uuid flt st u r s :
  f_grant flt = false -> f_put flt = false ->
  match Registry uuid flt st u r s with
  | (st', u', r', err) =>
      r_leaseID r' = st_next_lease st /\
      In (r_leaseID r') (st_leases st') /\
      (exists c, lookup (st_kvs st') (reg_key uuid s u)
                 = Some (mkKV (reg_key uuid s u) (svc_addr s) (r_leaseID r') c)) /\
      (err = None <-> f_keepalive flt = false) /\
      (err <> None -> err = Some ErrConn)
  end.
Proof.
  intros Hg Hp.
  destruct (put_after_grant st (reg_key uuid s u) (svc_addr s)) as [st2 Hput].
  assert (Hl : st_leases st2 = st_leases (snd (grant st))).
  { unfold put in Hput; destruct (lease_live _ _); [|discriminate].
    injection Hput as <-; reflexivity. }
  assert (Hin : In (st_next_lease st) (st_leases st2))
    by (rewrite Hl; apply grant_live).
  destruct (lookup_put_same _ _ _ _ _ Hput) as [c Hc].
  unfold Registry; rewrite Hg, Hp.
  unfold reg_key in Hput, Hc; cbn [fst snd grant] in Hput |- *.
  rewrite Hput.
  destruct (f_keepalive flt); cbn [r_leaseID];
    (split; [reflexivity | split; [exact Hin | split; [exists c; exact Hc|]]]).
  - split; [split; discriminate | intros _; reflexivity].
  - split; [split; reflexivity | intros C; contradiction].
Qed.

Lemma Registry_after_put_witness :
  match Registry uuid_unary (mkFaults false false true false false)
          empty_store 0 (NewEtcdRegistry LeaseTTL) order_service with
  | (st', u', r', err) =>
      r_leaseID r' = st_next_lease empty_store /\
      In (r_leaseID r') (st_leases st') /\
      (exists c, lookup (st_kvs st') (reg_key uuid_unary order_service 0)
                 = Some (mkKV (reg_key uuid_unary order_service 0)
                              (svc_addr order_service) (r_leaseID r') c)) /\
      (err = None <-> true = false) /\
      (err <> None -> err = Some ErrConn)
  end.
Proof.
  exact (Registry_after_put uuid_unary (mkFaults false false true false false)
           empty_store 0 (NewEtcdRegistry LeaseTTL) order_service
           eq_refl eq_refl).
Defined.


(** ** The lock's wait loop *)

(** X6: a waiter at event index [n] that meets only Put events and Deletes
    of other keys up to index [n + d], where a Delete of the lock key sits,
    goes back to [getlock] after exactly [d + 1] of its own steps, without
    touching the store. *)
Theorem lock_waiter_retries_at_first_delete st l a n d :
  (forall j, n <= j < n + d ->
     exists ev, nth_error (st_events st) j = Some ev /\ ev <> EvDelete lockKey) ->
  nth_error (st_events st) (n + d) = Some (EvDelete lockKey) ->
  proc_iter (S d) st (mkProc l (PWait n) a) = Some (st, mkProc l PAttempt false).
Proof.
  revert n a; induction d as [|d IH]; intros n a Hskip Hdel.
  - rewrite Nat.add_0_r in Hdel.
    simpl; unfold proc_step; simpl; rewrite Hdel, String.eqb_refl.
    reflexivity.
  - destruct (Hskip n ltac:(lia)) as [ev [Hev Hne]].
    assert (Hstep : proc_step st (mkProc l (PWait n) a)
                    = Some (st, mkProc l (PWait (S n)) false)).
    { unfold proc_step; simpl; rewrite Hev.
      destruct ev as [k v|k]; [reflexivity|].
      destruct (String.eqb_spec k lockKey); [congruence | reflexivity]. }
    change (proc_iter (S (S d)) st (mkProc l (PWait n) a))
      with (match proc_step st (mkProc l (PWait n) a) with
            | Some (st', p') => proc_iter (S d) st' p'
            | None => None end).
    rewrite Hstep.
    apply IH.
    + intros j Hj; apply Hskip; lia.
    + rewrite <- Hdel; f_equal; lia.
Qed.

Lemma lock_waiter_retries_at_first_delete_witness :
  proc_iter 2 (mkStore [] 3 [1] 2
                 [EvPut lockKey "locked"; EvPut "other" "x"; EvDelete lockKey])
            (mkProc 1 (PWait 1) false)
  = Some (mkStore [] 3 [1] 2
            [EvPut lockKey "locked"; EvPut "other" "x"; EvDelete lockKey],
          mkProc 1 PAttempt false).
Proof.
  apply (lock_waiter_retries_at_first_delete _ 1 false 1 1).
  - intros j Hj; assert (j = 1) as -> by lia.
    eexists; split; [reflexivity | discriminate].
  - reflexivity.
Defined.

(** ** The lock key and its holder *)

(** X7: as long as no holder's lease expires and no watch stream closes,
    from a start where every process is at [getlock] with its own lease,
    a process holding the lock finds the lock key bound to its own lease:
    the key its step 7 deletes is its own. *)
Theorem lock_holder_owns_key st0 ps w i :
  store_wf st0 ->
  NoDup (map p_lease ps) ->
  Forall (fun p => p_pc p = PAttempt) ps ->
  lock_reach (mkWorld st0 ps) w ->
  held w i = true ->
  exists p e, nth_error (w_procs w) i = Some p /\
              lookup (st_kvs (w_store w)) lockKey = Some e /\
              kv_lease e = p_lease p.
Proof.
  intros Hwf Hnd Hall Hr Hi.
  pose proof (lock_inv_lock_reach _ _ (lock_inv_init _ _ Hwf Hnd Hall) Hr)
    as (_ & _ & Hcrit).
  unfold held in Hi.
  destruct (nth_error (w_procs w) i) as [p|] eqn:Hp; [|discriminate].
  destruct (p_pc p) eqn:Hpc; try discriminate.
  destruct (Hcrit i p Hp Hpc) as (_ & e & He & Hel).
  exists p, e; auto.
Qed.

Lemma lock_holder_owns_key_witness :
  exists p e, nth_error (w_procs lock_w_waiter_expired) 0 = Some p /\
              lookup (st_kvs (w_store lock_w_waiter_expired)) lockKey = Some e /\
              kv_lease e = p_lease p.
Proof.
  apply (lock_holder_owns_key (w_store lock_w0) (w_procs lock_w0)
           lock_w_waiter_expired 0).
  - unfold store_wf; simpl; constructor.
  - simpl; repeat constructor; simpl; lia.
  - simpl; repeat constructor.
  - apply run_lock_reach with (tr := [AProc 0; AProc 1; AExpire 2]).
    vm_compute; reflexivity.
  - vm_compute; reflexivity.
Defined.

(** ** Registering twice, then [DeRegistry] *)

Lemma Registry_store_facts uuid flt st u r s st' u' r' :
  Registry uuid flt st u r s = (st', u', r', None) ->
  st_next_lease st' = S (st_next_lease st) /\
  (forall x, In x (st_leases st) -> In x (st_leases st')).
Proof.
  unfold Registry; intros H.
  destruct (f_grant flt); [discriminate|].
  cbn [fst snd grant] in H.
  destruct (f_put flt); [discriminate|].
  destruct (put _ _ _ _) as [s2|] eqn:Hp; [|discriminate].
  unfold put in Hp; destruct (lease_live _ _); [|discriminate].
  injection Hp as <-.
  destruct (f_keepalive flt); [discriminate|].
  injection H as <- _ _; simpl.
  split; [reflexivity | intros x Hx; apply in_or_app; left; exact Hx].
Qed.

(** X8: after two successful [Registry] calls on one [RegistryEtcd] (with
    distinct unique suffixes), a [DeRegistry] whose revoke goes through
    returns no lease error, yet the first call's record is still stored,
    unchanged, and its lease is still live: only the second call's lease,
    the one kept in [r.leaseID], is revoked. *)
Theorem Registry_twice_DeRegistry_keeps_first uuid flt1 flt2 flt3 st u r s1 s2
    st1 u1 r1 st2 u2 r2 st3 r3 err3 :
  (forall a b, uuid a = uuid b -> a = b) ->
  svc_name s1 = svc_name s2 ->
  Registry uuid flt1 st u r s1 = (st1, u1, r1, None) ->
  Registry uuid flt2 st1 u1 r1 s2 = (st2, u2, r2, None) ->
  f_revoke flt3 = false ->
  DeRegistry flt3 st2 r2 = (st3, r3, err3) ->
  err3 <> Some ErrLeaseNotFound /\
  In (r_leaseID r1) (st_leases st3) /\
  exists c, lookup (st_kvs st3) (reg_key uuid s1 u)
            = Some (mkKV (reg_key uuid s1 u) (svc_addr s1) (r_leaseID r1) c).
Proof.
  intros Hinj Hn H1 H2 Hf H3.
  destruct (Registry_outcome _ _ _ _ _ _ _ _ _ _ H1)
    as [(_ & Hne) | (Hl1 & Hin1 & Hu1 & [c Hk1] & _)]; [congruence|].
  destruct (Registry_outcome _ _ _ _ _ _ _ _ _ _ H2)
    as [(_ & Hne) | (Hl2 & Hin2 & _ & _ & Ho2)]; [congruence|].
  destruct (Registry_store_facts _ _ _ _ _ _ _ _ _ H1) as [Hn1 _].
  destruct (Registry_store_facts _ _ _ _ _ _ _ _ _ H2) as [_ Hm2].
  assert (Hneq : r_leaseID r1 <> r_leaseID r2) by (rewrite Hl1, Hl2, Hn1; lia).
  subst u1.
  assert (Hkey : reg_key uuid s1 u <> reg_key uuid s2 (S u)).
  { unfold reg_key; rewrite Hn; intros He.
    apply append_cancel_l, Hinj in He; lia. }
  assert (Hk2 : lookup (st_kvs st2) (reg_key uuid s1 u)
                = Some (mkKV (reg_key uuid s1 u) (svc_addr s1) (r_leaseID r1) c))
    by (rewrite (Ho2 _ Hkey); exact Hk1).
  assert (Hrev : existsb (Nat.eqb (r_leaseID r2)) (st_leases st2) = true).
  { apply existsb_exists; exists (r_leaseID r2);
      split; [exact Hin2 | apply Nat.eqb_refl]. }
  assert (Hkeep : negb (Nat.eqb (r_leaseID r1) (r_leaseID r2)) = true)
    by (apply negb_true_iff, Nat.eqb_neq; exact Hneq).
  unfold DeRegistry, revoke in H3; rewrite Hf, Hrev in H3.
  destruct (f_close flt3); injection H3 as <- <- <-;
    (split; [discriminate | split]);
    simpl; try (apply filter_In; split; [apply Hm2; exact Hin1 | exact Hkeep]);
    exists c; apply lookup_filter_keep; [exact Hk2 | exact Hkeep | exact Hk2 | exact Hkeep].
Qed.

Lemma Registry_twice_DeRegistry_keeps_first_witness :
  match Registry uuid_unary no_faults empty_store 0
          (NewEtcdRegistry LeaseTTL) order_service with
  | (st1, u1, r1, _) =>
      match Registry uuid_unary no_faults st1 u1 r1 order_service with
      | (st2, _, r2, _) =>
          match DeRegistry no_faults st2 r2 with
          | (st3, _, _) => In (r_leaseID r1) (st_leases st3)
          end
      end
  end.
Proof.
  exact (proj1 (proj2 (Registry_twice_DeRegistry_keeps_first uuid_unary
           no_faults no_faults no_faults empty_store 0
           (NewEtcdRegistry LeaseTTL) order_service order_service
           _ _ _ _ _ _ _ _ _ uuid_unary_inj eq_refl eq_refl eq_refl eq_refl
           eq_refl))).
Defined.
